(** * scripts/train.py: the text normaliser [stemming] and [batch_iterator]

    A shallow embedding of the two functions of [scripts/train.py] and of the
    regular expression [REGEX] they use, together with the properties the
    specification states about them.

    Python strings are sequences of Unicode code points: a character is a
    code point ([N]) and a string is a list of them.  The collaborators the
    script imports are parameters of the development:
    - [is_word]  : the [\w] class of Python's [re] for [str] patterns;
    - [lower]    : [str.lower];
    - [stemWord] : [Stemmer("english").stemWord] (PyStemmer), of which
                   [stemWords] is the map over a sequence of words;
    - [stops]    : [set(stopwords.words("english"))]. *)

From Stdlib Require Import NArith Ascii.
From stdpp Require Import base list gmap sets strings.

Open Scope N_scope.

(** ** Strings *)

Abbreviation char := N.
Abbreviation str := (list N).

Definition SPACE : char := 32.

(** A Rocq string literal as a Python string (code points below 256). *)
Definition str_of (s : string) : str :=
  map N_of_ascii (String.list_ascii_of_string s).

(** [sep.join(l)] *)
Fixpoint join (sep : str) (l : list str) : str :=
  match l with
  | [] => []
  | [x] => x
  | x :: l' => x ++ sep ++ join sep l'
  end.

(** The ASCII rows of the two Unicode tables, for concrete runs. *)
Definition is_word_ascii (c : char) : bool :=
  ((48 <=? c) && (c <=? 57)) || ((65 <=? c) && (c <=? 90))
  || ((97 <=? c) && (c <=? 122)) || (c =? 95).

Definition lower_ascii (s : str) : str :=
  map (fun c => if (65 <=? c) && (c <=? 90) then c + 32 else c) s.

(** ** REGEX = re.compile(r"(?u)\b\w\w+\b") and REGEX.findall *)

Section Regex.
Variable is_word : char -> bool.

(** The character before or after a position; outside the string counts
    as a non-word character. *)
Definition word_at (o : option char) : bool :=
  match o with
  | Some c => is_word c
  | None => false
  end.

(** [\b] between [prev] and [next] *)
Definition boundary (prev next : option char) : bool :=
  xorb (word_at prev) (word_at next).

(** [\w*\b] after [last] has been consumed: the star is greedy and gives
    characters back one at a time until [\b] holds. *)
Fixpoint word_star_b (last : char) (s : str) : option (str * str) :=
  match s with
  | [] => if boundary (Some last) None then Some ([], []) else None
  | c :: s' =>
      match (if is_word c then word_star_b c s' else None) with
      | Some (m, r) => Some (c :: m, r)
      | None => if boundary (Some last) (Some c) then Some ([], s) else None
      end
  end.

(** One attempt of [\b\w\w+\b] at the position after [prev]: the matched
    text and what follows it. *)
Definition match_at (prev : option char) (s : str) : option (str * str) :=
  match s with
  | c1 :: c2 :: s' =>
      if boundary prev (Some c1) && is_word c1 && is_word c2 then
        match word_star_b c2 s' with
        | Some (m, r) => Some (c1 :: c2 :: m, r)
        | None => None
        end
      else None
  | _ => None
  end.

(** The scan of [findall]: try the pattern at the current position, on
    success emit the match and go on after it, otherwise move one
    character to the right. *)
Fixpoint findall_from (fuel : nat) (prev : option char) (s : str) : list str :=
  match fuel with
  | O => []
  | S fuel' =>
      match s with
      | [] => []
      | c :: s' =>
          match match_at prev s with
          | Some (m, r) => m :: findall_from fuel' (last m) r
          | None => findall_from fuel' (Some c) s'
          end
      end
  end.

Definition findall (text : str) : list str :=
  findall_from (length text) None text.

(** *** The specification's reading of the token rule *)

(** The pieces of [s] between non-word characters, [cur] being the piece
    under construction. *)
Fixpoint word_runs (cur : str) (s : str) : list str :=
  match s with
  | [] => [cur]
  | c :: s' =>
      if is_word c then word_runs (cur ++ [c]) s' else cur :: word_runs [] s'
  end.

(** The maximal runs of two or more word characters, in source order. *)
Definition maximal_runs2 (text : str) : list str :=
  filter (fun r => (2 <= length r)%nat) (word_runs [] text).

(** [w] occurs in [text] as a maximal run of word characters. *)
Definition is_maximal_run (text w : str) : Prop :=
  exists pre post,
    text = pre ++ w ++ post /\ w <> [] /\ forallb is_word w = true
    /\ word_at (last pre) = false /\ word_at (head post) = false.

(** The text rebuilt from the tokens and the gaps around them. *)
Fixpoint weave (gaps tokens : list str) : str :=
  match gaps, tokens with
  | g :: gaps', t :: tokens' => g ++ t ++ weave gaps' tokens'
  | g :: _, [] => g
  | [], _ => []
  end.

Fixpoint take_word (s : str) : str :=
  match s with
  | c :: s' => if is_word c then c :: take_word s' else []
  | [] => []
  end.

Fixpoint drop_word (s : str) : str :=
  match s with
  | c :: s' => if is_word c then drop_word s' else s
  | [] => []
  end.
End Regex.

(** ** stemming(text, lowercase=True) *)

Section Normalizer.
Variable is_word : char -> bool.
Variable lower : str -> str.
Variable stemWord : str -> str.
Variable stops : gset str.

(** [stemmer.stemWords(words)] *)
Definition stemWords (words : list str) : list str := map stemWord words.

(** The generator handed to [stemWords]. *)
Definition stem_inputs (text : str) (lowercase : bool) : list str :=
  map (fun word => if lowercase then lower word else word)
      (findall is_word text).

(** The stems that pass the [if word not in stops] filter. *)
Definition kept_stems (text : str) (lowercase : bool) : list str :=
  filter (fun word => word ∉ stops) (stemWords (stem_inputs text lowercase)).

Definition stemming (text : str) (lowercase : bool) : str :=
  join [SPACE] (kept_stems text lowercase).

(** The stem the pipeline computes for one extracted token. *)
Definition stem_of (lowercase : bool) (word : str) : str :=
  stemWord (if lowercase then lower word else word).
End Normalizer.

(** *** Shape of the output string *)

(** [s] has two consecutive spaces somewhere. *)
Definition has_double_space (s : str) : Prop :=
  exists a b, s = a ++ [SPACE; SPACE] ++ b.

(** No leading space, no trailing space, no two spaces in a row. *)
Definition well_spaced (s : str) : Prop :=
  ~ has_double_space s /\ head s <> Some SPACE /\ last s <> Some SPACE.

(** ** The stemmer as an object with internal state

    [stemmer] is a module-level object and [stemWords] a method call on it.
    Here the object's state (PyStemmer keeps a cache of stems) is threaded
    explicitly: [stemWords_st words st] returns the stems and the object's
    next state. *)

Section Stateful.
Variable St : Type.
Variable is_word : char -> bool.
Variable lower : str -> str.
Variable stemWords_st : list str -> St -> list str * St.
Variable stops : gset str.

Definition stemming_st (text : str) (lowercase : bool) (st : St) : str * St :=
  let words := findall is_word text in
  let '(stems, st') :=
    stemWords_st (map (fun word => if lowercase then lower word else word) words) st in
  (join [SPACE] (filter (fun word => word ∉ stops) stems), st').

(** [[stemming(text) for text in texts]] on one stemmer object. *)
Fixpoint stemming_all_st (texts : list str) (st : St) : list str * St :=
  match texts with
  | [] => ([], st)
  | text :: texts' =>
      let '(out, st1) := stemming_st text true st in
      let '(outs, st2) := stemming_all_st texts' st1 in
      (out :: outs, st2)
  end.

(** The groups yielded by the generator, one stemmer object throughout. *)
Fixpoint batches_st (batches : list (list str)) (st : St) : list (list str) * St :=
  match batches with
  | [] => ([], st)
  | batch :: batches' =>
      let '(outs, st1) := stemming_all_st batch st in
      let '(rest, st2) := batches_st batches' st1 in
      (outs :: rest, st2)
  end.
End Stateful.

(** A stemmer object that remembers the stems it has computed, as PyStemmer
    does: a word found in the cache is answered from it, any other word is
    stemmed by the algorithm and entered. *)
Definition cached_stemWord (algo : str -> str) (word : str) (cache : gmap str str)
  : str * gmap str str :=
  match cache !! word with
  | Some stem => (stem, cache)
  | None => let stem := algo word in (stem, <[word := stem]> cache)
  end.

Fixpoint cached_stemWords (algo : str -> str) (words : list str) (cache : gmap str str)
  : list str * gmap str str :=
  match words with
  | [] => ([], cache)
  | word :: words' =>
      let '(stem, cache1) := cached_stemWord algo word cache in
      let '(stems, cache2) := cached_stemWords algo words' cache1 in
      (stem :: stems, cache2)
  end.

(** Every entry of the cache is what the algorithm computes. *)
Definition cache_ok (algo : str -> str) (cache : gmap str str) : Prop :=
  forall word stem, cache !! word = Some stem -> stem = algo word.

(** ** batch_iterator(batch_size=1000) *)

(** [Dataset.iter(batch_size)] of the [datasets] library on the rows of the
    selected column: the slices [rows[i : i + batch_size]] for [i] in
    [range(0, len(rows), batch_size)].  The library rejects a batch size of
    zero; the properties below are stated for positive sizes. *)
Definition dataset_iter {A} (batch_size : nat) (rows : list A) : list (list A) :=
  map (fun k => take batch_size (drop (k * batch_size) rows))
      (seq 0 ((length rows + batch_size - 1) / batch_size)).

Section BatchIterator.
Variable is_word : char -> bool.
Variable lower : str -> str.
Variable stemWord : str -> str.
Variable stops : gset str.

(** The list of the groups the generator yields for the dataset [ds]. *)
Definition batch_iterator (batch_size : nat) (ds : list str) : list (list str) :=
  map (fun batch => map (fun text => stemming is_word lower stemWord stops text true) batch)
      (dataset_iter batch_size ds).

Definition default_batch_size : nat := 1000.
End BatchIterator.

(** ** A table-driven stemmer for concrete runs *)

Fixpoint assoc (table : list (str * str)) (word : str) : option str :=
  match table with
  | [] => None
  | (k, v) :: table' => if decide (k = word) then Some v else assoc table' word
  end.

(** Words of the table go to their entry, any other word is left as it is. *)
Definition table_stem (table : list (str * str)) (word : str) : str :=
  match assoc table word with
  | Some stem => stem
  | None => word
  end.

Definition english_sample : list (str * str) :=
  [ (str_of "running", str_of "run"); (str_of "dogs", str_of "dog");
    (str_of "quickly", str_of "quickli"); (str_of "jumped", str_of "jump");
    (str_of "owns", str_of "own");
    (str_of "agreed", str_of "agre"); (str_of "agre", str_of "agr") ].

Definition stops_sample : gset str :=
  list_to_set (map str_of ["the"; "own"; "and"; "of"]).

(** ** The tokens of the output string *)




(** ** The states of the caching stemmer object *)

(** The object is created with an empty cache; a [stemWords] call takes it
    to the next cache; the cache may drop entries at any time (PyStemmer
    purges it when it exceeds [maxCacheSize]). *)
Inductive cache_reachable (algo : str -> str) : gmap str str -> Prop :=
  | reach_fresh : cache_reachable algo ∅
  | reach_call words cache :
      cache_reachable algo cache ->
      cache_reachable algo (cached_stemWords algo words cache).2
  | reach_purge cache cache' :
      cache' ⊆ cache -> cache_reachable algo cache -> cache_reachable algo cache'.

(** * Properties *)

Example findall_ex :
  findall is_word_ascii (str_of "a Running_2  dogs, x quickly!jumped") =
  map str_of ["Running_2"; "dogs"; "quickly"; "jumped"].
Proof. vm_compute. reflexivity. Qed.

Example stemming_ex :
  stemming is_word_ascii lower_ascii (table_stem english_sample) stops_sample
    (str_of "The dog owns, and agreed: Running!") true
  = str_of "dog agre run".
Proof. vm_compute. reflexivity. Qed.

(** ** The regular expression *)

(** Decide the length test of the first piece under [filter]. *)
Ltac long_head :=
  rewrite filter_cons; destruct (decide _) as [Hlong|Hlong];
  simpl in Hlong; try lia; try done.

Section RegexFacts.
Variable is_word : char -> bool.

Local Abbreviation take_word := (take_word is_word).
Local Abbreviation drop_word := (drop_word is_word).
Local Abbreviation word_runs := (word_runs is_word).
Local Abbreviation long := (fun r : str => (2 <= length r)%nat).

Lemma take_drop_word s : take_word s ++ drop_word s = s.
Proof.
  induction s as [|c s IH]; simpl; [done|].
  destruct (is_word c); simpl; [by rewrite IH | done].
Qed.

Lemma take_word_all s : forallb is_word (take_word s) = true.
Proof.
  induction s as [|c s IH]; simpl; [done|].
  destruct (is_word c) eqn:Hc; simpl; [by rewrite Hc | done].
Qed.

Lemma drop_word_head s : word_at is_word (head (drop_word s)) = false.
Proof.
  induction s as [|c s IH]; simpl; [done|].
  destruct (is_word c) eqn:Hc; simpl; done.
Qed.

Lemma drop_word_length s : (length (drop_word s) <= length s)%nat.
Proof.
  induction s as [|c s IH]; simpl; [done|].
  destruct (is_word c); simpl; lia.
Qed.

Lemma take_word_id s : forallb is_word s = true -> take_word s = s.
Proof.
  induction s as [|c s IH]; simpl; [done|].
  intros [Hc Hs]%andb_prop. rewrite Hc. by rewrite IH.
Qed.

Lemma last_word (c : char) (m : str) :
  is_word c = true -> forallb is_word m = true ->
  word_at is_word (last (c :: m)) = true.
Proof.
  revert c. induction m as [|d m IH]; intros c Hc Hm; [done|].
  simpl in Hm. apply andb_prop in Hm as [Hd Hm].
  change (last (c :: d :: m)) with (last (d :: m)). by apply IH.
Qed.

(** After a word character the greedy star takes the whole run: the
    boundary holds there and nowhere before. *)
Lemma word_star_b_spec last s :
  is_word last = true ->
  word_star_b is_word last s = Some (take_word s, drop_word s).
Proof.
  revert last. induction s as [|c s IH]; intros last Hl; simpl.
  - unfold boundary. simpl. by rewrite Hl.
  - destruct (is_word c) eqn:Hc.
    + by rewrite (IH c Hc).
    + unfold boundary. simpl. by rewrite Hl, Hc.
Qed.

Lemma match_at_word prev c1 c2 s :
  word_at is_word prev = false -> is_word c1 = true -> is_word c2 = true ->
  match_at is_word prev (c1 :: c2 :: s)
  = Some (c1 :: c2 :: take_word s, drop_word s).
Proof.
  intros Hp H1 H2. unfold match_at, boundary. simpl.
  rewrite Hp, H1, H2. simpl. by rewrite word_star_b_spec.
Qed.

Lemma match_at_inside prev s :
  word_at is_word prev = true -> match_at is_word prev s = None.
Proof.
  intros Hp. destruct s as [|c1 [|c2 s]]; simpl; try done.
  unfold boundary. simpl. rewrite Hp.
  by destruct (is_word c1).
Qed.

Lemma match_at_nonword prev c s :
  is_word c = false -> match_at is_word prev (c :: s) = None.
Proof.
  intros Hc. destruct s as [|c2 s]; simpl; [done|].
  rewrite Hc. by rewrite andb_false_r.
Qed.

Lemma match_at_single prev c1 c2 s :
  is_word c2 = false -> match_at is_word prev (c1 :: c2 :: s) = None.
Proof. intros Hc. simpl. rewrite Hc. by rewrite andb_false_r. Qed.

Lemma word_runs_cur cur s :
  word_runs cur s = (cur ++ take_word s) :: tail (word_runs [] (drop_word s)).
Proof.
  revert cur. induction s as [|c s IH]; intros cur; simpl.
  - by rewrite app_nil_r.
  - destruct (is_word c) eqn:Hc; simpl.
    + rewrite IH. by rewrite <- app_assoc.
    + rewrite Hc. by rewrite app_nil_r.
Qed.

Lemma word_runs_tail cur s :
  tail (word_runs cur s) = tail (word_runs [] s).
Proof. by rewrite (word_runs_cur cur s), (word_runs_cur [] s). Qed.

(** The scan, for any amount of fuel that covers the text. *)
Lemma findall_from_spec fuel prev s :
  (length s <= fuel)%nat ->
  findall_from is_word fuel prev s
  = filter long (if word_at is_word prev then tail (word_runs [] s)
                 else word_runs [] s).
Proof.
  revert prev s. induction fuel as [|fuel IH]; intros prev s Hlen.
  { destruct s; [|simpl in Hlen; lia]. simpl. by destruct (word_at is_word prev). }
  destruct s as [|c1 s1]; [simpl; by destruct (word_at is_word prev)|].
  simpl in Hlen. cbn [findall_from].
  destruct (word_at is_word prev) eqn:Hp.
  - rewrite match_at_inside by done.
    rewrite IH by lia. simpl.
    destruct (is_word c1) eqn:H1; simpl; [|done].
    by rewrite (word_runs_tail [c1]).
  - destruct (is_word c1) eqn:H1.
    + destruct s1 as [|c2 s2].
      * simpl. rewrite H1. simpl. destruct fuel; simpl.
        -- by long_head.
        -- by long_head.
      * destruct (is_word c2) eqn:H2.
        -- rewrite match_at_word by done.
           assert (Hl : word_at is_word (last (c1 :: c2 :: take_word s2)) = true).
           { apply last_word; [done|]. simpl. rewrite H2. apply take_word_all. }
           pose proof (drop_word_length s2). simpl in Hlen.
           rewrite IH by lia. rewrite Hl.
           rewrite (word_runs_cur [] (c1 :: c2 :: s2)). simpl.
           rewrite H1, H2. by long_head.
        -- rewrite match_at_single by done.
           rewrite IH by lia. simpl. rewrite H1, H2. simpl.
           by long_head.
    + rewrite match_at_nonword by done.
      rewrite IH by lia. simpl. rewrite H1.
      by long_head.
Qed.

Lemma findall_runs text : findall is_word text = maximal_runs2 is_word text.
Proof. unfold findall, maximal_runs2. by rewrite findall_from_spec. Qed.

Lemma take_word_app w post :
  forallb is_word w = true -> word_at is_word (head post) = false ->
  take_word (w ++ post) = w /\ drop_word (w ++ post) = post.
Proof.
  intros Hw Hpost. induction w as [|c w IH]; simpl.
  - destruct post as [|d post]; [done|]. simpl in *. by rewrite Hpost.
  - simpl in Hw. apply andb_prop in Hw as [Hc Hw]. rewrite Hc.
    destruct (IH Hw) as [-> ->]. done.
Qed.

(** Every non-empty piece is a maximal run of the text read so far. *)
Lemma word_runs_sound pre0 cur s w :
  forallb is_word cur = true -> word_at is_word (last pre0) = false ->
  w ∈ word_runs cur s -> w <> [] ->
  exists pre post,
    pre0 ++ cur ++ s = pre ++ w ++ post /\ forallb is_word w = true
    /\ word_at is_word (last pre) = false /\ word_at is_word (head post) = false.
Proof.
  revert pre0 cur. induction s as [|c s IH]; intros pre0 cur Hcur Hpre Hin Hne; simpl in Hin.
  - apply list_elem_of_singleton in Hin as ->. by exists pre0, [].
  - destruct (is_word c) eqn:Hc.
    + destruct (IH pre0 (cur ++ [c])) as (pre & post & Heq & ?); try done.
      { rewrite forallb_app, Hcur. simpl. by rewrite Hc. }
      exists pre, post. split; [|done]. rewrite <- Heq. by rewrite <- app_assoc.
    + apply elem_of_cons in Hin as [->|Hin].
      * exists pre0, (c :: s). simpl. by rewrite Hc.
      * destruct (IH (pre0 ++ cur ++ [c]) []) as (pre & post & Heq & ?); try done.
        { rewrite !app_assoc. rewrite last_snoc. simpl. done. }
        exists pre, post. split; [|done]. rewrite <- Heq.
        rewrite <- !app_assoc. done.
Qed.

Lemma word_runs_skip cur pre s :
  pre <> [] -> word_at is_word (last pre) = false ->
  exists l, word_runs cur (pre ++ s) = l ++ word_runs [] s.
Proof.
  revert cur. induction pre as [|c pre IH]; intros cur Hne Hlast; [done|].
  destruct pre as [|d pre].
  - simpl in *. rewrite Hlast. by exists [cur].
  - change (last (c :: d :: pre)) with (last (d :: pre)) in Hlast.
    simpl. destruct (is_word c).
    + apply IH; done.
    + destruct (IH [] ltac:(done) Hlast) as [l Hl].
      exists (cur :: l). simpl in Hl. by rewrite Hl.
Qed.

Lemma word_runs_complete text w :
  is_maximal_run is_word text w -> w ∈ word_runs [] text.
Proof.
  intros (pre & post & -> & Hne & Hw & Hpre & Hpost).
  assert (Hrun : w ∈ word_runs [] (w ++ post)).
  { rewrite word_runs_cur. destruct (take_word_app w post Hw Hpost) as [-> _].
    simpl. apply elem_of_cons. by left. }
  destruct pre as [|c pre]; [done|].
  destruct (word_runs_skip [] (c :: pre) (w ++ post)) as [l ->]; [done..|].
  apply elem_of_app. by right.
Qed.

(** The tokens of [findall] are exactly the maximal runs of length two or
    more. *)
Lemma findall_maximal text w :
  w ∈ findall is_word text <-> is_maximal_run is_word text w /\ (2 <= length w)%nat.
Proof.
  rewrite findall_runs. unfold maximal_runs2. rewrite list_elem_of_filter. split.
  - intros [Hlen Hin]. split; [|done].
    assert (Hne : w <> []) by (intros ->; simpl in Hlen; lia).
    destruct (word_runs_sound [] [] text w) as (pre & post & Heq & ?); try done.
    exists pre, post. simpl in Heq. done.
  - intros [Hrun Hlen]. split; [done|]. by apply word_runs_complete.
Qed.

Lemma weave_gap x g gaps tokens :
  weave ((x ++ g) :: gaps) tokens = x ++ weave (g :: gaps) tokens.
Proof. destruct tokens; simpl; by rewrite <- ?app_assoc. Qed.

Lemma weave_cons c g gaps tokens :
  weave ((c :: g) :: gaps) tokens = c :: weave (g :: gaps) tokens.
Proof. by destruct tokens. Qed.

Lemma weave_first t gaps tokens :
  weave ([] :: gaps) (t :: tokens) = t ++ weave gaps tokens.
Proof. done. Qed.

Lemma word_runs_weave cur s :
  exists gaps,
    length gaps = S (length (filter long (word_runs cur s)))
    /\ cur ++ s = weave gaps (filter long (word_runs cur s)).
Proof.
  revert cur. induction s as [|c s IH]; intros cur; simpl.
  - rewrite filter_cons. destruct (decide _) as [Hl|Hl].
    + exists [[]; []]. simpl. done.
    + exists [cur]. simpl. by rewrite app_nil_r.
  - destruct (is_word c).
    + destruct (IH (cur ++ [c])) as (gaps & Hlen & Heq).
      exists gaps. split; [done|]. rewrite <- Heq. by rewrite <- app_assoc.
    + destruct (IH []) as (gaps & Hlen & Heq). simpl in Heq.
      destruct gaps as [|g gaps]; [done|].
      rewrite filter_cons. destruct (decide _) as [Hl|Hl].
      * exists ([] :: (c :: g) :: gaps). split; [simpl in *; lia|].
        rewrite weave_first, weave_cons. by rewrite <- Heq.
      * exists ((cur ++ c :: g) :: gaps). split; [simpl in *; lia|].
        rewrite weave_gap, weave_cons. by rewrite <- Heq.
Qed.

(** The tokens lie in the text one after another, in the order of the
    list, separated by the gaps. *)
Lemma findall_weave text :
  exists gaps,
    length gaps = S (length (findall is_word text))
    /\ text = weave gaps (findall is_word text).
Proof.
  rewrite findall_runs. unfold maximal_runs2.
  destruct (word_runs_weave [] text) as (gaps & ? & ?). by exists gaps.
Qed.

Lemma findall_long text :
  Forall (fun w => (2 <= length w)%nat /\ forallb is_word w = true)
         (findall is_word text).
Proof.
  apply Forall_forall. intros w Hw.
  apply findall_maximal in Hw as [(pre & post & _ & _ & Hall & _) Hlen]. done.
Qed.
End RegexFacts.

(** ** The normaliser *)

Section JoinFacts.

Lemma join_cons2 sep x y l : join sep (x :: y :: l) = x ++ sep ++ join sep (y :: l).
Proof. done. Qed.

Lemma join_head_nonempty sep x l : x <> [] -> join sep (x :: l) <> [].
Proof.
  intros Hx. destruct l; simpl; [done|].
  destruct x; [done|]. done.
Qed.

Lemma no_double_space_word x :
  SPACE ∉ x -> ~ has_double_space x.
Proof.
  intros Hx (a & b & ->). apply Hx.
  apply elem_of_app. right. apply elem_of_cons. by left.
Qed.

(** A space-free word in front of a well-spaced text. *)
Lemma well_spaced_cons x r :
  x <> [] -> SPACE ∉ x -> r <> [] -> well_spaced r ->
  well_spaced (x ++ [SPACE] ++ r).
Proof.
  intros Hne Hx Hr (Hdd & Hhd & Hlast). repeat split.
  - clear Hlast Hr. induction x as [|c x IH]; [done|].
    apply not_elem_of_cons in Hx as [Hc Hx].
    intros (a & b & Heq). destruct a as [|c' a]; simpl in Heq.
    { injection Heq as -> _. done. }
    injection Heq as _ Heq.
    destruct x as [|d x].
    + simpl in Heq. destruct a as [|c'' a]; simpl in Heq.
      * injection Heq as ->. by apply Hhd.
      * injection Heq as _ ->. apply Hdd. by exists a, b.
    + apply IH; [done|done|]. by exists a, b.
  - destruct x as [|c x]; [done|]. simpl.
    apply not_elem_of_cons in Hx as [Hc _]. congruence.
  - rewrite app_assoc. rewrite last_app.
    destruct (last r) eqn:Hl; [done|].
    apply last_None in Hl. done.
Qed.

Lemma join_well_spaced l :
  Forall (fun x : str => x <> [] /\ SPACE ∉ x) l -> well_spaced (join [SPACE] l).
Proof.
  induction l as [|x l IH]; intros Hall.
  - repeat split; simpl; try done. intros (a & b & Heq). by destruct a.
  - apply Forall_cons in Hall as [[Hne Hx] Hall].
    destruct l as [|y l].
    + simpl. repeat split.
      * by apply no_double_space_word.
      * destruct x as [|c x]; [done|]. simpl.
        apply not_elem_of_cons in Hx as [Hc _]. congruence.
      * intros Hl. apply Hx. rewrite last_Some in Hl. destruct Hl as [l' ->].
        apply elem_of_app. right. apply elem_of_cons. by left.
    + rewrite join_cons2. apply well_spaced_cons; try done.
      * apply join_head_nonempty. by apply Forall_cons in Hall as [[? _] _].
      * by apply IH.
Qed.
End JoinFacts.

Section RegexMore.
Variable is_word : char -> bool.

Lemma word_runs_ext (q : char -> bool) cur s :
  Forall (fun c => is_word c = q c) s -> word_runs is_word cur s = word_runs q cur s.
Proof.
  intros Hall. revert cur. induction Hall as [|c s Hc Hs IH]; intros cur; simpl; [done|].
  rewrite <- Hc. destruct (is_word c); by rewrite IH.
Qed.

(** [findall] only looks at the class of the characters of the text. *)
Lemma findall_ext (q : char -> bool) text :
  Forall (fun c => is_word c = q c) text -> findall is_word text = findall q text.
Proof.
  intros Hall. rewrite !findall_runs. unfold maximal_runs2.
  by rewrite (word_runs_ext q).
Qed.

Lemma word_runs_word cur x :
  forallb is_word x = true -> word_runs is_word cur x = [cur ++ x].
Proof.
  revert cur. induction x as [|c x IH]; intros cur Hx; simpl.
  - by rewrite app_nil_r.
  - simpl in Hx. apply andb_prop in Hx as [Hc Hx]. rewrite Hc.
    rewrite IH by done. by rewrite <- app_assoc.
Qed.

Lemma word_runs_word_sep cur x c r :
  forallb is_word x = true -> is_word c = false ->
  word_runs is_word cur (x ++ c :: r) = (cur ++ x) :: word_runs is_word [] r.
Proof.
  revert cur. induction x as [|d x IH]; intros cur Hx Hc; simpl.
  - rewrite Hc. by rewrite app_nil_r.
  - simpl in Hx. apply andb_prop in Hx as [Hd Hx]. rewrite Hd.
    rewrite IH by done. by rewrite <- app_assoc.
Qed.

(** A single run of two or more word characters is its own only token. *)
Lemma findall_word x :
  (2 <= length x)%nat -> forallb is_word x = true -> findall is_word x = [x].
Proof.
  intros Hlen Hx. rewrite findall_runs. unfold maximal_runs2.
  rewrite word_runs_word by done. simpl. by long_head.
Qed.

(** Tokenising the space-joined words gives the words back, when the space
    is not a word character. *)
Lemma findall_join l :
  is_word SPACE = false ->
  Forall (fun x : str => (2 <= length x)%nat /\ forallb is_word x = true) l ->
  findall is_word (join [SPACE] l) = l.
Proof.
  intros Hsp Hall. rewrite findall_runs. unfold maximal_runs2.
  induction Hall as [|x l [Hlen Hx] Hl IH].
  - simpl. by long_head.
  - destruct l as [|y l].
    + cbn [join]. rewrite word_runs_word by done. simpl. by long_head.
    + rewrite join_cons2.
      change ([SPACE] ++ join [SPACE] (y :: l)) with (SPACE :: join [SPACE] (y :: l)).
      rewrite word_runs_word_sep by done.
      rewrite filter_cons. destruct (decide _) as [_|Hn]; [|simpl in Hn; lia].
      by rewrite IH.
Qed.
End RegexMore.

Lemma join_elem sep (s : str) l :
  s ∈ l -> exists a b, join sep l = a ++ s ++ b.
Proof.
  induction l as [|x l IH]; intros Hin; [by apply elem_of_nil in Hin|].
  apply elem_of_cons in Hin as [->|Hin].
  - destruct l as [|y l].
    + exists [], []. simpl. by rewrite app_nil_r.
    + exists [], (sep ++ join sep (y :: l)). by rewrite join_cons2.
  - destruct (IH Hin) as (a & b & Heq). destruct l as [|y l]; [by apply elem_of_nil in Hin|].
    exists (x ++ sep ++ a), b. rewrite join_cons2, Heq. by rewrite <- !app_assoc.
Qed.



Section NormalizerFacts.
Variable is_word : char -> bool.
Variable lower : str -> str.
Variable stemWord : str -> str.
Variable stops : gset str.

Local Abbreviation stem_of := (stem_of lower stemWord).
Local Abbreviation stem_inputs := (stem_inputs is_word lower).
Local Abbreviation kept_stems := (kept_stems is_word lower stemWord stops).
Local Abbreviation stemming := (stemming is_word lower stemWord stops).

(** The surviving stems are the stems of the tokens whose stem is not a
    stopword, token by token. *)
Lemma kept_stems_tokens text lowercase :
  kept_stems text lowercase
  = map (stem_of lowercase)
        (filter (fun w => stem_of lowercase w ∉ stops) (findall is_word text)).
Proof.
  unfold kept_stems, stemWords, stem_inputs, stem_of.
  induction (findall is_word text) as [|w ws IH]; [done|].
  simpl. rewrite !filter_cons. destruct (decide _); simpl; by rewrite IH.
Qed.

Lemma kept_stems_not_stops text lowercase :
  Forall (fun s => s ∉ stops) (kept_stems text lowercase).
Proof.
  apply Forall_forall. intros s Hs. unfold kept_stems in Hs.
  by apply list_elem_of_filter in Hs as [? _].
Qed.

(** C1: stopwords are removed after stemming, by the stemmed form.  A token
    whose stem (of its lowercased form when [lowercase] is set) is in the
    stopword set contributes nothing to the output, whether or not the
    token as written is a stopword: no surviving stem is a stopword, and
    the surviving stems are those of the tokens with a stem outside the
    set. *)
Theorem stopword_filter_is_post_stemming text lowercase w :
  w ∈ findall is_word text ->
  stem_of lowercase w ∈ stops ->
  (stem_of lowercase w ∉ kept_stems text lowercase)
  /\ (w ∉ filter (fun w' => stem_of lowercase w' ∉ stops) (findall is_word text))
  /\ stemming text lowercase
     = join [SPACE]
         (map (stem_of lowercase)
              (filter (fun w' => stem_of lowercase w' ∉ stops) (findall is_word text))).
Proof.
  intros Hw Hstop. repeat split.
  - intros Hin. pose proof (kept_stems_not_stops text lowercase) as Hall.
    rewrite Forall_forall in Hall. by apply (Hall _ Hin).
  - intros Hin. by apply list_elem_of_filter in Hin as [? _].
  - unfold stemming. by rewrite kept_stems_tokens.
Qed.

Lemma kept_stems_in text lowercase s :
  s ∈ kept_stems text lowercase ->
  exists w, w ∈ findall is_word text /\ s = stem_of lowercase w /\ s ∉ stops.
Proof.
  rewrite kept_stems_tokens. intros Hs.
  apply list_elem_of_fmap in Hs as (w & -> & Hw).
  apply list_elem_of_filter in Hw as [Hns Hw]. by exists w.
Qed.

(** C2: the output has no two consecutive spaces, no leading space and no
    trailing space, provided the stem computed for a non-empty token of word
    characters is non-empty and free of spaces. *)
Theorem normalize_well_spaced text lowercase :
  (forall w, w <> [] -> forallb is_word w = true ->
     stem_of lowercase w <> [] /\ SPACE ∉ stem_of lowercase w) ->
  ~ has_double_space (stemming text lowercase)
  /\ head (stemming text lowercase) <> Some SPACE
  /\ last (stemming text lowercase) <> Some SPACE.
Proof.
  intros Hstem. apply join_well_spaced.
  apply Forall_forall. intros s Hs.
  apply kept_stems_in in Hs as (w & Hw & -> & _).
  pose proof (findall_long is_word text) as Hall.
  rewrite Forall_forall in Hall. destruct (Hall _ Hw) as [Hlen Hword].
  apply Hstem; [|done]. intros ->. simpl in Hlen. lia.
Qed.

Lemma findall_no_word text :
  Forall (fun c => is_word c = false) text -> findall is_word text = [].
Proof.
  intros Hall. rewrite findall_runs. unfold maximal_runs2.
  induction Hall as [|c s Hc Hs IH]; simpl.
  - by long_head.
  - rewrite Hc. by long_head.
Qed.

(** C3: a text without any word character, the empty text included, has no
    token and normalises to the empty string, for either value of
    [lowercase] and whatever the stemmer and the stopword set are. *)
Theorem normalize_no_word_chars text lowercase :
  Forall (fun c => is_word c = false) text ->
  findall is_word text = [] /\ stemming text lowercase = [].
Proof.
  intros Hall. split; [by apply findall_no_word|].
  unfold stemming, kept_stems, stem_inputs.
  by rewrite findall_no_word.
Qed.

(** C4: source order.  For every text, stemmer and stopword set, the
    tokens lie in the text in the order of the token list, and the output
    is the space-joined stems of a sub-sequence of that list.  And for a
    stemmer and a stopword set as in the example, "Running dogs quickly
    jumped" gives "run dog quickli jump". *)
Theorem normalize_preserves_order :
  (forall text lowercase,
     (exists gaps, length gaps = S (length (findall is_word text))
                   /\ text = weave gaps (findall is_word text))
     /\ (exists ws, ws `sublist_of` findall is_word text
                   /\ kept_stems text lowercase = map (stem_of lowercase) ws
                   /\ stemming text lowercase
                      = join [SPACE] (map (stem_of lowercase) ws)))
  /\ ((forall c, c < 128 -> is_word c = is_word_ascii c) ->
      (forall s, Forall (fun c => c < 128) s -> lower s = lower_ascii s) ->
      stemWord (str_of "running") = str_of "run" ->
      stemWord (str_of "dogs") = str_of "dog" ->
      stemWord (str_of "quickly") = str_of "quickli" ->
      stemWord (str_of "jumped") = str_of "jump" ->
      Forall (fun s => s ∉ stops) (map str_of ["run"; "dog"; "quickli"; "jump"]) ->
      stemming (str_of "Running dogs quickly jumped") true
      = str_of "run dog quickli jump").
Proof.
  apply and_comm. split.
  - intros Hword Hlower H1 H2 H3 H4 Hstops.
    unfold stemming, kept_stems, stem_inputs, stemWords.
    rewrite (findall_ext is_word is_word_ascii).
    2:{ assert (Hascii : Forall (fun c => c < 128)
                           (str_of "Running dogs quickly jumped"))
          by compute_done.
        eapply Forall_impl; [exact Hascii|]. intros c Hc. by apply Hword. }
    replace (findall is_word_ascii (str_of "Running dogs quickly jumped")) with
      (map str_of ["Running"; "dogs"; "quickly"; "jumped"])
      by (vm_compute; reflexivity).
    cbn [map].
    rewrite !Hlower by compute_done.
    change (lower_ascii (str_of "Running")) with (str_of "running").
    change (lower_ascii (str_of "dogs")) with (str_of "dogs").
    change (lower_ascii (str_of "quickly")) with (str_of "quickly").
    change (lower_ascii (str_of "jumped")) with (str_of "jumped").
    rewrite H1, H2, H3, H4.
    cbn [map] in Hstops.
    apply Forall_cons in Hstops as [S1 Hstops].
    apply Forall_cons in Hstops as [S2 Hstops].
    apply Forall_cons in Hstops as [S3 Hstops].
    apply Forall_cons in Hstops as [S4 _].
    rewrite !filter_cons_True by done. rewrite filter_nil.
    vm_compute. reflexivity.
  - intros text lowercase. split; [apply findall_weave|].
    exists (filter (fun w => stem_of lowercase w ∉ stops) (findall is_word text)).
    split; [apply sublist_filter|].
    split; [apply kept_stems_tokens|].
    unfold stemming. by rewrite kept_stems_tokens.
Qed.


(** C6, as amended: normalising the output again changes nothing when the
    space is not a word character and every surviving stem consists of two
    or more word characters and is its own stem (after lowercasing when
    [lowercase] is set). *)
Theorem normalize_idempotent_on_stable_stems text lowercase :
  is_word SPACE = false ->
  (forall s, s ∈ kept_stems text lowercase ->
     (2 <= length s)%nat /\ forallb is_word s = true /\ stem_of lowercase s = s) ->
  stemming (stemming text lowercase) lowercase = stemming text lowercase.
Proof.
  intros Hsp Hstable. unfold stemming at 1 3. f_equal.
  rewrite kept_stems_tokens. unfold stemming.
  rewrite findall_join; [|done|].
  2:{ apply Forall_forall. intros s Hs. by destruct (Hstable s Hs) as (? & ? & _). }
  pose proof (kept_stems_not_stops text lowercase) as Hns.
  rewrite Forall_forall in Hns.
  induction (kept_stems text lowercase) as [|s l IH]; [done|].
  rewrite filter_cons.
  destruct (Hstable s) as (_ & _ & Hfix); [apply elem_of_cons; by left|].
  destruct (decide _) as [_|Hn].
  - cbn [map]. rewrite Hfix. f_equal. apply IH.
    + intros s' Hs'. apply Hstable. apply elem_of_cons. by right.
    + intros s' Hs'. apply Hns. apply elem_of_cons. by right.
  - exfalso. apply Hn. rewrite Hfix. apply Hns. apply elem_of_cons. by left.
Qed.

(** C7: with [lowercase=False] the tokens reach the stemmer as they are
    written.  For the text "Running" the stemmer receives "Running", and
    the output is the stem of that very string unless the stem is a
    stopword; [lower] plays no part. *)
Theorem lowercase_false_keeps_case :
  (forall c, c ∈ str_of "Running" -> is_word c = true) ->
  stem_inputs (str_of "Running") false = [str_of "Running"]
  /\ stemming (str_of "Running") false
     = (if decide (stemWord (str_of "Running") ∈ stops) then []
        else stemWord (str_of "Running"))
  /\ forall text, stem_inputs text false = findall is_word text.
Proof.
  intros Hword.
  assert (Hf : findall is_word (str_of "Running") = [str_of "Running"]).
  { apply findall_word; [vm_compute; lia|].
    apply forallb_forall. intros c Hc. apply Hword. by apply list_elem_of_In. }
  repeat split.
  - unfold stem_inputs. by rewrite Hf.
  - unfold stemming, kept_stems, stem_inputs, stemWords. rewrite Hf. cbn [map].
    rewrite filter_cons, filter_nil.
    destruct (decide (stemWord (str_of "Running") ∈ stops)) as [Hin|Hin].
    + by rewrite decide_False by (by intros H; apply H).
    + by rewrite decide_True by done.
  - intros text. unfold stem_inputs. apply map_id.
Qed.

(** C10: the stopword test is exact string equality on the stem.  With
    [lowercase=False], when the stopword set holds lowercase forms only, a
    token whose stem is not all lowercase is kept and its stem is part of
    the output, also when the lowercased stem is a stopword. *)
Theorem stopword_match_is_case_sensitive text w :
  (forall s, s ∈ stops -> lower s = s) ->
  w ∈ findall is_word text ->
  lower (stemWord w) <> stemWord w ->
  (stemWord w ∉ stops)
  /\ stemWord w ∈ kept_stems text false
  /\ exists a b, stemming text false = a ++ stemWord w ++ b.
Proof.
  intros Hlow Hw Hcase.
  assert (Hns : stemWord w ∉ stops) by (intros Hin; by apply Hcase, Hlow).
  assert (Hk : stemWord w ∈ kept_stems text false).
  { rewrite kept_stems_tokens. apply list_elem_of_fmap.
    exists w. split; [done|]. apply list_elem_of_filter. done. }
  repeat split; [done..|]. by apply join_elem.
Qed.
End NormalizerFacts.

(** ** The stemmer object and the batches *)

Lemma div_up_lt n len i :
  (0 < n)%nat -> (i < (len + n - 1) / n)%nat <-> (i * n < len)%nat.
Proof.
  intros Hn. split; intros H.
  - assert (Hle : (n * S i <= len + n - 1)%nat).
    { etransitivity; [|apply (Nat.Div0.mul_div_le _ n)].
      apply Nat.mul_le_mono_l. lia. }
    lia.
  - apply (Nat.div_le_lower_bound (len + n - 1) n (S i)); lia.
Qed.

Lemma dataset_iter_lookup {A} n (rows : list A) i :
  (0 < n)%nat ->
  dataset_iter n rows !! i
  = if decide (i * n < length rows)%nat
    then Some (take n (drop (i * n) rows)) else None.
Proof.
  intros Hn. unfold dataset_iter.
  change (map ?f ?l) with (f <$> l). rewrite list_lookup_fmap.
  destruct (decide _) as [Hlt|Hge].
  - rewrite lookup_seq_lt by (by apply div_up_lt). done.
  - rewrite lookup_seq_ge; [done|].
    destruct (decide (i < (length rows + n - 1) / n)%nat) as [Hi|Hi]; [|lia].
    apply div_up_lt in Hi; [done|done].
Qed.

Lemma dataset_iter_prefix {A} n (rows : list A) m :
  concat (map (fun k => take n (drop (k * n) rows)) (seq 0 m)) = take (m * n) rows.
Proof.
  induction m as [|m IH]; [done|].
  rewrite seq_S, map_app, concat_app, IH. simpl.
  rewrite app_nil_r. rewrite take_take_drop. f_equal. lia.
Qed.

(** The batches are consecutive slices that cover the rows. *)
Lemma dataset_iter_concat {A} n (rows : list A) :
  (0 < n)%nat -> concat (dataset_iter n rows) = rows.
Proof.
  intros Hn. unfold dataset_iter. rewrite dataset_iter_prefix.
  apply take_ge.
  destruct (decide (length rows <= (length rows + n - 1) / n * n)%nat) as [|Hlt]; [done|].
  assert (Hi : ((length rows + n - 1) / n * n < length rows)%nat) by lia.
  apply div_up_lt in Hi; [lia|done].
Qed.

Lemma cached_stemWords_ok algo words cache :
  cache_ok algo cache ->
  (cached_stemWords algo words cache).1 = map algo words
  /\ cache_ok algo (cached_stemWords algo words cache).2.
Proof.
  revert cache. induction words as [|word words IH]; intros cache Hok; [done|].
  simpl. unfold cached_stemWord.
  destruct (cache !! word) as [stem|] eqn:Hc.
  - destruct (IH cache Hok) as [Hout Hok'].
    destruct (cached_stemWords algo words cache) as [stems cache2].
    simpl in *. rewrite Hout. by rewrite (Hok _ _ Hc).
  - assert (Hok1 : cache_ok algo (<[word := algo word]> cache)).
    { intros w' s' Hl. destruct (decide (word = w')) as [->|Hne].
      - rewrite lookup_insert_eq in Hl. congruence.
      - rewrite lookup_insert_ne in Hl by done. by apply Hok. }
    destruct (IH _ Hok1) as [Hout Hok'].
    destruct (cached_stemWords algo words _) as [stems cache2].
    simpl in *. by rewrite Hout.
Qed.

Section IteratorFacts.
Variable St : Type.
Variable is_word : char -> bool.
Variable lower : str -> str.
Variable stemWord : str -> str.
Variable stops : gset str.
Variable stemWords_st : list str -> St -> list str * St.

(** The states the stemmer object can be in. *)
Variable inv : St -> Prop.

(** What the stemming library promises: whatever its internal state, the
    stems are those of the algorithm, and the state stays valid. *)
Hypothesis stemmer_contract :
  forall words st, inv st ->
    (stemWords_st words st).1 = map stemWord words
    /\ inv (stemWords_st words st).2.

Local Abbreviation stemming := (stemming is_word lower stemWord stops).
Local Abbreviation stemming_st := (stemming_st St is_word lower stemWords_st stops).
Local Abbreviation stemming_all_st :=
  (stemming_all_st St is_word lower stemWords_st stops).

Lemma stemming_st_pure text lowercase st :
  inv st ->
  (stemming_st text lowercase st).1 = stemming text lowercase
  /\ inv (stemming_st text lowercase st).2.
Proof.
  intros Hst. unfold stemming_st.
  destruct (stemmer_contract
              (map (fun word => if lowercase then lower word else word)
                   (findall is_word text)) st Hst) as [Hout Hinv].
  destruct (stemWords_st _ st) as [stems st']. simpl in *.
  by rewrite Hout.
Qed.

Lemma stemming_all_st_pure texts st :
  inv st ->
  (stemming_all_st texts st).1 = map (fun text => stemming text true) texts
  /\ inv (stemming_all_st texts st).2.
Proof.
  revert st. induction texts as [|text texts IH]; intros st Hst; [done|].
  simpl. destruct (stemming_st_pure text true st Hst) as [Hout Hinv].
  destruct (stemming_st text true st) as [out st1]. simpl in *.
  destruct (IH st1 Hinv) as [Houts Hinv'].
  destruct (stemming_all_st texts st1) as [outs st2]. simpl in *.
  by rewrite Hout, Houts.
Qed.

Lemma batches_st_pure batches st :
  inv st ->
  (batches_st St is_word lower stemWords_st stops batches st).1
  = map (fun batch => map (fun text => stemming text true) batch) batches.
Proof.
  revert st. induction batches as [|batch batches IH]; intros st Hst; [done|].
  simpl. destruct (stemming_all_st_pure batch st Hst) as [Hout Hinv].
  destruct (stemming_all_st batch st) as [outs st1]. simpl in *.
  specialize (IH st1 Hinv).
  destruct (batches_st St is_word lower stemWords_st stops batches st1) as [rest st2].
  simpl in *. by rewrite Hout, IH.
Qed.

(** C9: the generator yields, batch by batch, the normalised documents of
    the dataset in their order.  The batches are the consecutive slices of
    [batch_size] documents (the last one holds what is left), document [j]
    of batch [i] is the normalisation of document [i * batch_size + j],
    the state of the stemmer object carried from one batch to the next
    changes nothing, and the default size is 1000. *)
Theorem batch_iterator_groups batch_size ds st :
  (0 < batch_size)%nat -> inv st ->
  concat (batch_iterator is_word lower stemWord stops batch_size ds)
  = map (fun text => stemming text true) ds
  /\ (forall i group,
        batch_iterator is_word lower stemWord stops batch_size ds !! i = Some group ->
        (0 < length group)%nat
        /\ length group = Nat.min batch_size (length ds - i * batch_size))
  /\ (forall i j, (j < batch_size)%nat ->
        batch_iterator is_word lower stemWord stops batch_size ds !! i
          ≫= (fun group => group !! j)
        = (fun text => stemming text true) <$> ds !! (i * batch_size + j)%nat)
  /\ (batches_st St is_word lower stemWords_st stops (dataset_iter batch_size ds) st).1
     = batch_iterator is_word lower stemWord stops batch_size ds
  /\ default_batch_size = 1000%nat.
Proof.
  intros Hn Hst. unfold batch_iterator. split; [|split; [|split; [|split]]]; [| | | |done].
  - rewrite <- (dataset_iter_concat batch_size ds Hn) at 2.
    generalize (dataset_iter batch_size ds). intros l.
    induction l as [|g l IH]; [done|]. simpl. by rewrite map_app, IH.
  - intros i group Hg.
    change (map ?f ?l) with (f <$> l) in Hg. rewrite list_lookup_fmap in Hg.
    rewrite dataset_iter_lookup in Hg by done.
    destruct (decide _) as [Hlt|]; [|done]. simpl in Hg. injection Hg as <-.
    rewrite length_map, length_take, length_drop. lia.
  - intros i j Hj.
    change (map ?f (dataset_iter batch_size ds)) with (f <$> dataset_iter batch_size ds).
    rewrite list_lookup_fmap, dataset_iter_lookup by done.
    destruct (decide _) as [Hlt|Hge]; simpl.
    + change (map ?f ?l) with (f <$> l). rewrite list_lookup_fmap.
      rewrite lookup_take_lt by done. by rewrite lookup_drop.
    + rewrite (lookup_ge_None_2 ds) by lia. done.
  - by apply batches_st_pure.
Qed.
End IteratorFacts.

(** Every cache the stemmer object can hold agrees with the algorithm. *)
Lemma cache_reachable_ok algo cache :
  cache_reachable algo cache -> cache_ok algo cache.
Proof.
  induction 1 as [|words cache Hr IH|cache cache' Hsub Hr IH].
  - intros w s' Hl. by rewrite lookup_empty in Hl.
  - by apply cached_stemWords_ok.
  - intros w s' Hl. apply IH. by eapply lookup_weaken.
Qed.

Section PurityFacts.
Variable is_word : char -> bool.
Variable lower : str -> str.
Variable algo : str -> str.
Variable stops : gset str.

Local Abbreviation stemming := (stemming is_word lower algo stops).
Local Abbreviation stemming_st :=
  (stemming_st (gmap str str) is_word lower (cached_stemWords algo) stops).
Local Abbreviation stemming_all_st :=
  (stemming_all_st (gmap str str) is_word lower (cached_stemWords algo) stops).

Lemma stemming_st_reachable text lowercase cache :
  cache_reachable algo cache ->
  cache_reachable algo (stemming_st text lowercase cache).2.
Proof.
  intros Hr. unfold stemming_st.
  pose proof (reach_call algo
                (map (fun word => if lowercase then lower word else word)
                     (findall is_word text)) cache Hr) as Hr'.
  destruct (cached_stemWords algo _ cache) as [stems cache1]. done.
Qed.

Lemma stemming_all_st_reachable texts cache :
  cache_reachable algo cache ->
  cache_reachable algo (stemming_all_st texts cache).2.
Proof.
  revert cache. induction texts as [|text texts IH]; intros cache Hr; [done|].
  simpl. pose proof (stemming_st_reachable text true cache Hr) as H1.
  destruct (stemming_st text true cache) as [out cache1]. simpl in H1.
  specialize (IH cache1 H1).
  destruct (stemming_all_st texts cache1) as [outs cache2]. done.
Qed.

(** C8: the only state that lives from one call to the next is the cache of
    the stemmer object, and it cannot be observed.  In every state the
    object can reach from its creation (by earlier [stemWords] calls and
    by purges of its cache) a call returns the value of the function of the
    text, the flag, the stopword set and the stemming algorithm; so two
    calls with the same inputs agree, and the documents normalised before
    change nothing for a later one. *)
Theorem normalize_is_pure text lowercase earlier cache cache' :
  cache_reachable algo cache -> cache_reachable algo cache' ->
  (stemming_st text lowercase cache).1 = stemming text lowercase
  /\ (stemming_st text lowercase cache).1 = (stemming_st text lowercase cache').1
  /\ (stemming_st text lowercase (stemming_all_st earlier cache).2).1
     = (stemming_st text lowercase cache).1
  /\ cache_reachable algo (stemming_st text lowercase cache).2.
Proof.
  intros Hr Hr'.
  assert (Hpure : forall c, cache_reachable algo c ->
            (stemming_st text lowercase c).1 = stemming text lowercase).
  { intros c Hc. apply cache_reachable_ok in Hc.
    by destruct (stemming_st_pure (gmap str str) is_word lower algo stops
                   (cached_stemWords algo) (cache_ok algo)
                   (cached_stemWords_ok algo) text lowercase c Hc) as [? _]. }
  split; [by apply Hpure|]. split; [by rewrite !Hpure|].
  split; [|by apply stemming_st_reachable].
  rewrite !Hpure; [done|done|]. by apply stemming_all_st_reachable.
Qed.
End PurityFacts.

(** ** Concrete runs: ASCII tables, the sample stemmer and stopwords *)

Local Abbreviation sample_stem := (table_stem english_sample).
Local Abbreviation sample_normalize :=
  (stemming is_word_ascii lower_ascii sample_stem stops_sample).
Local Abbreviation sample_kept :=
  (kept_stems is_word_ascii lower_ascii sample_stem stops_sample).

Lemma assoc_elem table word stem :
  assoc table word = Some stem -> stem ∈ map snd table.
Proof.
  induction table as [|[k v] table IH]; simpl; [done|].
  destruct (decide (k = word)).
  - intros [= ->]. apply elem_of_cons. by left.
  - intros H. apply elem_of_cons. right. by apply IH.
Qed.

(** A stem is a table entry or the word itself. *)
Lemma table_stem_cases table word :
  table_stem table word = word \/ table_stem table word ∈ map snd table.
Proof.
  unfold table_stem. destruct (assoc table word) eqn:Ha; [|by left].
  right. by apply assoc_elem in Ha.
Qed.

Lemma lower_ascii_char c :
  is_word_ascii c = true ->
  (if (65 <=? c) && (c <=? 90) then c + 32 else c) <> SPACE.
Proof.
  intros Hc. destruct ((65 <=? c) && (c <=? 90)) eqn:Hup.
  - apply andb_prop in Hup as [Hlo%N.leb_le _]. unfold SPACE. lia.
  - intros ->. vm_compute in Hc. discriminate.
Qed.

Lemma lower_ascii_no_space w :
  forallb is_word_ascii w = true -> SPACE ∉ lower_ascii w.
Proof.
  induction w as [|c w IH]; simpl; intros Hw.
  - apply not_elem_of_nil.
  - apply andb_prop in Hw as [Hc Hw]. apply not_elem_of_cons. split.
    + intros Heq. by apply (lower_ascii_char c Hc).
    + by apply IH.
Qed.

Lemma sample_stem_shape lowercase w :
  w <> [] -> forallb is_word_ascii w = true ->
  stem_of lower_ascii sample_stem lowercase w <> []
  /\ SPACE ∉ stem_of lower_ascii sample_stem lowercase w.
Proof.
  intros Hne Hw. unfold stem_of.
  set (x := if lowercase then lower_ascii w else w).
  assert (Hx : x <> [] /\ SPACE ∉ x).
  { subst x. destruct lowercase.
    - split; [by destruct w | by apply lower_ascii_no_space].
    - split; [done|]. intros Hin. apply list_elem_of_In in Hin.
      rewrite forallb_forall in Hw. by specialize (Hw _ Hin). }
  destruct (table_stem_cases english_sample x) as [->|Hin]; [done|].
  revert Hin. generalize (sample_stem x). apply Forall_forall. compute_done.
Qed.


Lemma stops_sample_lowercase s : s ∈ stops_sample -> lower_ascii s = s.
Proof.
  unfold stops_sample. rewrite elem_of_list_to_set.
  revert s. apply Forall_forall. compute_done.
Qed.

Lemma sample_cache_contract words cache :
  cache_ok sample_stem cache ->
  (cached_stemWords sample_stem words cache).1 = map sample_stem words
  /\ cache_ok sample_stem (cached_stemWords sample_stem words cache).2.
Proof. apply cached_stemWords_ok. Qed.

Lemma cache_ok_empty algo : cache_ok algo ∅.
Proof. intros w s' H. by rewrite lookup_empty in H. Qed.

Lemma stopword_filter_is_post_stemming_witness :
  (str_of "owns" ∉ stops_sample)
  /\ (stem_of lower_ascii sample_stem true (str_of "owns")
       ∉ sample_kept (str_of "He owns dogs") true)
  /\ sample_normalize (str_of "He owns dogs") true = str_of "he dog".
Proof.
  split; [compute_done|].
  destruct (stopword_filter_is_post_stemming is_word_ascii lower_ascii sample_stem
              stops_sample (str_of "He owns dogs") true (str_of "owns"))
    as (H1 & _ & H3); [compute_done..|].
  split; [exact H1|]. rewrite H3. vm_compute. reflexivity.
Defined.

Lemma normalize_well_spaced_witness :
  ~ has_double_space (sample_normalize (str_of "  The  dog,,owns  a Running  ") true)
  /\ head (sample_normalize (str_of "  The  dog,,owns  a Running  ") true) <> Some SPACE
  /\ last (sample_normalize (str_of "  The  dog,,owns  a Running  ") true) <> Some SPACE.
Proof.
  apply (normalize_well_spaced is_word_ascii lower_ascii sample_stem stops_sample).
  intros w Hne Hw. by apply sample_stem_shape.
Defined.

Lemma normalize_no_word_chars_witness :
  findall is_word_ascii (str_of " ,.!? -- ") = []
  /\ sample_normalize (str_of " ,.!? -- ") true = [].
Proof.
  apply (normalize_no_word_chars is_word_ascii lower_ascii sample_stem stops_sample).
  compute_done.
Defined.

Lemma normalize_preserves_order_witness :
  sample_normalize (str_of "Running dogs quickly jumped") true
  = str_of "run dog quickli jump".
Proof.
  apply (proj2 (normalize_preserves_order is_word_ascii lower_ascii sample_stem
                  stops_sample));
    try reflexivity; compute_done.
Defined.



(** C6 as stated fails: a stem need not be its own stem.  With a stemmer
    that takes "agreed" to "agre" and "agre" to "agr", the second pass
    changes the output. *)
Lemma normalize_not_idempotent :
  sample_normalize (str_of "agreed") true = str_of "agre"
  /\ sample_normalize (sample_normalize (str_of "agreed") true) true = str_of "agr"
  /\ sample_normalize (sample_normalize (str_of "agreed") true) true
     <> sample_normalize (str_of "agreed") true.
Proof. repeat split; compute_done. Qed.

Lemma normalize_idempotent_on_stable_stems_witness :
  sample_normalize (sample_normalize (str_of "Running, the dogs!") true) true
  = sample_normalize (str_of "Running, the dogs!") true.
Proof.
  apply (normalize_idempotent_on_stable_stems is_word_ascii lower_ascii sample_stem
           stops_sample).
  - reflexivity.
  - apply Forall_forall. compute_done.
Defined.

Lemma lowercase_false_keeps_case_witness :
  stem_inputs is_word_ascii lower_ascii (str_of "Running") false = [str_of "Running"]
  /\ sample_normalize (str_of "Running") false = str_of "Running"
  /\ sample_normalize (str_of "Running") true = str_of "run".
Proof.
  destruct (lowercase_false_keeps_case is_word_ascii lower_ascii sample_stem stops_sample)
    as (H1 & H2 & _).
  { apply Forall_forall. compute_done. }
  split; [exact H1|]. split; [rewrite H2|]; vm_compute; reflexivity.
Defined.

Lemma normalize_is_pure_witness :
  (stemming_st _ is_word_ascii lower_ascii (cached_stemWords sample_stem) stops_sample
     (str_of "Running dogs") true ∅).1
  = (stemming_st _ is_word_ascii lower_ascii (cached_stemWords sample_stem) stops_sample
       (str_of "Running dogs") true
       (cached_stemWords sample_stem [str_of "dogs"; str_of "agreed"] ∅).2).1.
Proof.
  apply (normalize_is_pure is_word_ascii lower_ascii sample_stem stops_sample
           (str_of "Running dogs") true [str_of "dogs agreed"]).
  - apply reach_fresh.
  - apply reach_call, reach_fresh.
Defined.

Lemma batch_iterator_groups_witness :
  batch_iterator is_word_ascii lower_ascii sample_stem stops_sample 2
    (map str_of ["Running dogs"; "The dog owns"; "agreed"])
  = [ [str_of "run dog"; str_of "dog"]; [str_of "agre"] ]
  /\ default_batch_size = 1000%nat.
Proof.
  destruct (batch_iterator_groups _ is_word_ascii lower_ascii sample_stem stops_sample
              (cached_stemWords sample_stem) (cache_ok sample_stem) sample_cache_contract
              2 (map str_of ["Running dogs"; "The dog owns"; "agreed"]) ∅)
    as (_ & _ & _ & _ & H5).
  - lia.
  - apply cache_ok_empty.
  - split; [|exact H5]. vm_compute. reflexivity.
Defined.

Lemma stopword_match_is_case_sensitive_witness :
  lower_ascii (sample_stem (str_of "The")) ∈ stops_sample
  /\ sample_stem (str_of "The") ∈ sample_kept (str_of "The dog") false
  /\ sample_normalize (str_of "The dog") false = str_of "The dog"
  /\ sample_normalize (str_of "The dog") true = str_of "dog".
Proof.
  split; [compute_done|].
  destruct (stopword_match_is_case_sensitive is_word_ascii lower_ascii sample_stem
              stops_sample (str_of "The dog") (str_of "The")) as (_ & H2 & _).
  - apply stops_sample_lowercase.
  - compute_done.
  - compute_done.
  - split; [exact H2|]. split; vm_compute; reflexivity.
Defined.

(** * Further properties of the regular expression and the normaliser *)

Section RegexLaws.
Variable is_word : char -> bool.

(** X1: one attempt of the pattern either fails or takes a whole run.  It
    succeeds with match [m] and rest [r] exactly when the text at the
    position is [m ++ r], [m] has two or more characters, all of them word
    characters, and neither the character before the position nor the
    first of [r] is a word character: backtracking never settles on a
    proper prefix of a run, and no match starts inside a run. *)
Theorem match_at_whole_run prev s m r :
  match_at is_word prev s = Some (m, r)
  <-> s = m ++ r /\ (2 <= length m)%nat /\ forallb is_word m = true
      /\ word_at is_word prev = false /\ word_at is_word (head r) = false.
Proof.
  split.
  - destruct s as [|c1 [|c2 s']]; simpl; try done.
    destruct (boundary is_word prev (Some c1) && is_word c1 && is_word c2) eqn:Hc;
      [|done].
    apply andb_prop in Hc as [Hc H2]. apply andb_prop in Hc as [Hb H1].
    unfold boundary in Hb. simpl in Hb. rewrite H1 in Hb.
    rewrite word_star_b_spec by done. intros [= <- <-].
    split; [by rewrite <- (take_drop_word is_word s') at 1|].
    split; [simpl; lia|]. split.
    + simpl. rewrite H1, H2. apply take_word_all.
    + split; [by destruct (word_at is_word prev)|apply drop_word_head].
  - intros (-> & Hlen & Hm & Hp & Hr).
    destruct m as [|c1 [|c2 m']]; simpl in Hlen; try lia.
    simpl in Hm. apply andb_prop in Hm as [H1 Hm]. apply andb_prop in Hm as [H2 Hm].
    change ((c1 :: c2 :: m') ++ r) with (c1 :: c2 :: (m' ++ r)).
    rewrite match_at_word by done.
    by destruct (take_word_app is_word m' r Hm Hr) as [-> ->].
Qed.

Lemma word_runs_app_sep cur a c b :
  is_word c = false ->
  word_runs is_word cur (a ++ c :: b)
  = word_runs is_word cur a ++ word_runs is_word [] b.
Proof.
  intros Hc. revert cur. induction a as [|d a IH]; intros cur; simpl.
  - by rewrite Hc.
  - destruct (is_word d); by rewrite IH.
Qed.

(** X2: a non-word character cuts the text in two independent parts: the
    tokens of [a ++ c :: b] are the tokens of [a] followed by the tokens
    of [b]. *)
Theorem findall_splits_at_nonword a c b :
  is_word c = false ->
  findall is_word (a ++ c :: b) = findall is_word a ++ findall is_word b.
Proof.
  intros Hc. rewrite !findall_runs. unfold maximal_runs2.
  rewrite word_runs_app_sep by done. apply filter_app.
Qed.

(** X3: only the word characters of a text matter.  Two texts of the same
    length that carry the same word characters at the same places, and
    arbitrary non-word characters elsewhere, have the same tokens. *)
Theorem findall_ignores_nonword_chars text1 text2 :
  Forall2 (fun c d => c = d \/ (is_word c = false /\ is_word d = false)) text1 text2 ->
  findall is_word text1 = findall is_word text2.
Proof.
  intros Hrel. rewrite !findall_runs. unfold maximal_runs2. f_equal.
  generalize (@nil N). induction Hrel as [|c d t1 t2 Hcd Hrel IH]; intros cur; [done|].
  simpl. destruct Hcd as [<-|[Hc Hd]].
  - destruct (is_word c); by rewrite IH.
  - rewrite Hc, Hd. by rewrite IH.
Qed.

Lemma word_runs_measure cur s :
  (sum_list_with length (word_runs is_word cur s) + length (word_runs is_word cur s)
   = S (length cur + length s))%nat.
Proof.
  revert cur. induction s as [|c s IH]; intros cur; simpl.
  - lia.
  - destruct (is_word c); simpl.
    + rewrite IH, length_app. simpl. lia.
    + specialize (IH []). simpl in IH. lia.
Qed.

Lemma filter_long_measure (l : list str) :
  (3 * length (filter (fun r : str => (2 <= length r)%nat) l)
   <= sum_list_with length l + length l)%nat
  /\ (sum_list_with length (filter (fun r : str => (2 <= length r)%nat) l)
      + length (filter (fun r : str => (2 <= length r)%nat) l)
      <= sum_list_with length l + length l)%nat.
Proof.
  induction l as [|x l [IH1 IH2]]; [simpl; lia|].
  rewrite filter_cons. destruct (decide _) as [Hx|Hx]; simpl; lia.
Qed.

(** X4: how many tokens a text can hold.  A token needs two characters and
    a separator from the next one, so [n] tokens need a text of at least
    [3 * n - 1] characters, and the tokens with one separator between
    neighbours fit in the text.  A text of fewer than two characters has no
    token. *)
Theorem findall_count_bound text :
  (3 * length (findall is_word text) <= length text + 1)%nat
  /\ (sum_list_with length (findall is_word text) + length (findall is_word text)
      <= length text + 1)%nat
  /\ ((length text < 2)%nat -> findall is_word text = []).
Proof.
  rewrite findall_runs. unfold maximal_runs2.
  pose proof (word_runs_measure [] text) as Hm. simpl in Hm.
  destruct (filter_long_measure (word_runs is_word [] text)) as [H1 H2].
  split; [lia|]. split; [lia|].
  intros Hlen.
  destruct (filter _ (word_runs is_word [] text)) as [|w ws]; [done|].
  simpl in H1. lia.
Qed.

(** X5: tokenising, joining the tokens with single spaces and tokenising
    again gives the same tokens, as long as the space is not a word
    character. *)
Theorem findall_join_round_trip text :
  is_word SPACE = false ->
  findall is_word (join [SPACE] (findall is_word text)) = findall is_word text.
Proof. intros Hsp. apply findall_join; [done|]. apply findall_long. Qed.
End RegexLaws.

Section JoinLaws.

Lemma join_length (l : list str) :
  (length (join [SPACE] l) = sum_list_with length l + pred (length l))%nat.
Proof.
  induction l as [|x l IH]; [done|].
  destruct l as [|y l]; [simpl; lia|].
  rewrite join_cons2, !length_app, IH. simpl. lia.
Qed.

Lemma join_app (l1 l2 : list str) :
  l1 <> [] -> l2 <> [] ->
  join [SPACE] (l1 ++ l2) = join [SPACE] l1 ++ [SPACE] ++ join [SPACE] l2.
Proof.
  intros H1 H2. induction l1 as [|x l1 IH]; [done|].
  destruct l1 as [|y l1].
  - destruct l2 as [|z l2]; [done|]. done.
  - change ((x :: y :: l1) ++ l2) with (x :: y :: (l1 ++ l2)).
    rewrite !join_cons2. change (y :: (l1 ++ l2)) with ((y :: l1) ++ l2).
    rewrite IH by done. by rewrite <- !app_assoc.
Qed.

Lemma join_nil_inv (l : list str) :
  Forall (fun x : str => x <> []) l -> join [SPACE] l = [] -> l = [].
Proof.
  intros Hall Hj. destruct l as [|x l]; [done|].
  apply Forall_cons in Hall as [Hx _].
  by apply (join_head_nonempty [SPACE] x l) in Hx.
Qed.

(** Two space-free words followed by nothing or by a space: the words and
    what follows are determined by the concatenation. *)
Lemma word_then_space_inj (x y r r' : str) :
  SPACE ∉ x -> SPACE ∉ y ->
  (r = [] \/ head r = Some SPACE) -> (r' = [] \/ head r' = Some SPACE) ->
  x ++ r = y ++ r' -> x = y /\ r = r'.
Proof.
  revert y. induction x as [|c x IH]; intros y Hx Hy Hr Hr' Heq.
  - destruct y as [|d y]; [done|]. simpl in Heq. subst r.
    destruct Hr as [?|Hr]; [done|]. simpl in Hr. injection Hr as ->.
    exfalso. apply Hy. apply elem_of_cons. by left.
  - apply not_elem_of_cons in Hx as [Hc Hx].
    destruct y as [|d y].
    + simpl in Heq. subst r'.
      destruct Hr' as [?|Hr']; [done|]. simpl in Hr'. by injection Hr' as ->.
    + apply not_elem_of_cons in Hy as [Hd Hy].
      injection Heq as -> Heq.
      destruct (IH y Hx Hy Hr Hr' Heq) as [-> ->]. done.
Qed.

Lemma join_cons_tail (x : str) (l : list str) :
  exists r, join [SPACE] (x :: l) = x ++ r
            /\ (r = [] \/ head r = Some SPACE)
            /\ (l = [] -> r = [])
            /\ (l <> [] -> r = SPACE :: join [SPACE] l).
Proof.
  destruct l as [|y l].
  - exists []. simpl. rewrite app_nil_r. repeat split; try done. by left.
  - exists (SPACE :: join [SPACE] (y :: l)). rewrite join_cons2.
    repeat split; try done. by right.
Qed.

(** The joined string determines the list of words, when the words are
    non-empty and free of spaces. *)
Lemma join_inj (l l' : list str) :
  Forall (fun x : str => x <> [] /\ SPACE ∉ x) l ->
  Forall (fun x : str => x <> [] /\ SPACE ∉ x) l' ->
  join [SPACE] l = join [SPACE] l' -> l = l'.
Proof.
  intros Hl. revert l'. induction Hl as [|x l [Hne Hx] Hl IH]; intros l' Hl' Heq.
  - symmetry. apply join_nil_inv; [|done].
    eapply Forall_impl; [exact Hl'|]. by intros ? [? _].
  - destruct Hl' as [|y l' [Hne' Hy] Hl'].
    + exfalso. by apply (join_head_nonempty [SPACE] x l).
    + destruct (join_cons_tail x l) as (r & Hj & Hr & Hr0 & Hr1).
      destruct (join_cons_tail y l') as (r' & Hj' & Hr' & Hr0' & Hr1').
      rewrite Hj, Hj' in Heq.
      destruct (word_then_space_inj x y r r' Hx Hy Hr Hr' Heq) as [-> Hrr].
      f_equal. destruct l as [|z l]; destruct l' as [|z' l'].
      * done.
      * rewrite Hr0 in Hrr by done. rewrite Hr1' in Hrr by done. done.
      * rewrite Hr0' in Hrr by done. rewrite Hr1 in Hrr by done. done.
      * rewrite Hr1 in Hrr by done. rewrite Hr1' in Hrr by done.
        injection Hrr as Hrr. by apply IH.
Qed.
End JoinLaws.

Section NormalizerLaws.
Variable is_word : char -> bool.
Variable lower : str -> str.
Variable stemWord : str -> str.
Variable stops : gset str.

Local Abbreviation stem_of := (stem_of lower stemWord).
Local Abbreviation kept_stems := (kept_stems is_word lower stemWord stops).
Local Abbreviation stemming := (stemming is_word lower stemWord stops).

(** X6: the [lowercase] flag makes no difference for a text whose tokens
    are left unchanged by [lower]. *)
Theorem lowercase_flag_irrelevant text :
  Forall (fun w => lower w = w) (findall is_word text) ->
  stemming text true = stemming text false.
Proof.
  intros Hall. unfold stemming, kept_stems, stem_inputs. do 3 f_equal.
  induction Hall as [|w ws Hw Hws IH]; [done|]. simpl. by rewrite Hw, IH.
Qed.

(** X7: a non-word character also cuts the output in two.  The surviving
    stems of [a ++ c :: b] are those of [a] followed by those of [b]; the
    output is the two outputs with one space between them, or the other
    output alone when one side has no surviving stem. *)
Theorem stemming_splits_at_nonword a c b lowercase :
  is_word c = false ->
  kept_stems (a ++ c :: b) lowercase = kept_stems a lowercase ++ kept_stems b lowercase
  /\ (kept_stems a lowercase <> [] -> kept_stems b lowercase <> [] ->
      stemming (a ++ c :: b) lowercase
      = stemming a lowercase ++ [SPACE] ++ stemming b lowercase)
  /\ (kept_stems a lowercase = [] ->
      stemming (a ++ c :: b) lowercase = stemming b lowercase)
  /\ (kept_stems b lowercase = [] ->
      stemming (a ++ c :: b) lowercase = stemming a lowercase).
Proof.
  intros Hc.
  assert (Hk : kept_stems (a ++ c :: b) lowercase
               = kept_stems a lowercase ++ kept_stems b lowercase).
  { unfold kept_stems, stemWords, stem_inputs.
    rewrite !findall_runs. unfold maximal_runs2.
    rewrite (word_runs_app_sep is_word [] a c b Hc).
    by rewrite filter_app, !map_app, filter_app. }
  split; [done|]. unfold stemming. rewrite Hk. repeat split.
  - intros Ha Hb. by apply join_app.
  - intros ->. done.
  - intros ->. by rewrite app_nil_r.
Qed.

Lemma kept_measure (P : str -> Prop) `{!forall w, Decision (P w)}
    (f : str -> str) (l : list str) :
  (forall w, w ∈ l -> length (f w) <= length w)%nat ->
  (sum_list_with length (map f (filter P l)) + length (map f (filter P l))
   <= sum_list_with length l + length l)%nat.
Proof.
  induction l as [|w l IH]; intros Hf; [done|].
  assert (Hw : (length (f w) <= length w)%nat) by (apply Hf, elem_of_cons; by left).
  assert (IH' := IH (fun w' Hin => Hf w' (proj2 (elem_of_cons l w' w) (or_intror Hin)))).
  rewrite filter_cons. destruct (decide _); simpl in *; lia.
Qed.

(** X8: the length of the output is the total length of the surviving
    stems plus one space between neighbours, and when no stem is longer
    than the token it comes from the output is no longer than the text. *)
Theorem output_length text lowercase :
  (length (stemming text lowercase)
   = sum_list_with length (kept_stems text lowercase)
     + pred (length (kept_stems text lowercase)))%nat
  /\ ((forall w, w ∈ findall is_word text ->
         (length (stem_of lowercase w) <= length w)%nat) ->
      (length (stemming text lowercase) <= length text)%nat).
Proof.
  split; [apply join_length|]. intros Hshort.
  unfold stemming. rewrite join_length, kept_stems_tokens.
  pose proof (kept_measure (fun w => stem_of lowercase w ∉ stops)
                (stem_of lowercase) (findall is_word text) Hshort) as Hk.
  rewrite findall_runs in Hk |- *. unfold maximal_runs2 in Hk |- *.
  pose proof (word_runs_measure is_word [] text) as Hm. simpl in Hm.
  destruct (filter_long_measure (word_runs is_word [] text)) as [_ H2].
  destruct (map _ _) as [|x l]; simpl in *; lia.
Qed.

(** X9: nothing is lost in the join.  When the surviving stems of two
    calls are non-empty and free of spaces, equal outputs mean equal lists
    of surviving stems. *)
Theorem output_determines_stems text1 lowercase1 text2 lowercase2 :
  Forall (fun s : str => s <> [] /\ SPACE ∉ s) (kept_stems text1 lowercase1) ->
  Forall (fun s : str => s <> [] /\ SPACE ∉ s) (kept_stems text2 lowercase2) ->
  stemming text1 lowercase1 = stemming text2 lowercase2 ->
  kept_stems text1 lowercase1 = kept_stems text2 lowercase2.
Proof. intros H1 H2 Heq. by apply join_inj. Qed.

(** X10: when no surviving stem is the empty string, the output is empty
    exactly when the stem of every token is a stopword (in particular when
    there is no token at all). *)
Theorem output_empty_iff_all_stopwords text lowercase :
  Forall (fun s : str => s <> []) (kept_stems text lowercase) ->
  stemming text lowercase = []
  <-> forall w, w ∈ findall is_word text -> stem_of lowercase w ∈ stops.
Proof.
  intros Hne. split.
  - intros Hout w Hw. apply join_nil_inv in Hout; [|done].
    destruct (decide (stem_of lowercase w ∈ stops)) as [|Hn]; [done|].
    exfalso. rewrite kept_stems_tokens in Hout.
    assert (Hin : stem_of lowercase w
                  ∈ map (stem_of lowercase)
                      (filter (fun w' => stem_of lowercase w' ∉ stops)
                              (findall is_word text))).
    { apply list_elem_of_fmap. exists w. split; [done|].
      by apply list_elem_of_filter. }
    rewrite Hout in Hin. by apply elem_of_nil in Hin.
  - intros Hall. unfold stemming. rewrite kept_stems_tokens.
    replace (filter _ (findall is_word text)) with (@nil str); [done|].
    symmetry. induction (findall is_word text) as [|w ws IH]; [done|].
    rewrite filter_cons_False.
    + apply IH. intros w' Hw'. apply Hall. apply elem_of_cons. by right.
    + intros Hn. apply Hn, Hall. apply elem_of_cons. by left.
Qed.
End NormalizerLaws.

Section StopwordLaws.
Variable is_word : char -> bool.
Variable lower : str -> str.
Variable stemWord : str -> str.

(** X11: a larger stopword set only removes stems.  With [stops ⊆ stops'],
    the stems surviving [stops'] are those surviving [stops] filtered by
    [stops'], hence a sub-sequence of them; and with the empty stopword
    set every stem survives. *)
Theorem more_stopwords_remove_more (stops stops' : gset str) text lowercase :
  stops ⊆ stops' ->
  kept_stems is_word lower stemWord stops' text lowercase
  = filter (fun s => s ∉ stops') (kept_stems is_word lower stemWord stops text lowercase)
  /\ kept_stems is_word lower stemWord stops' text lowercase
     `sublist_of` kept_stems is_word lower stemWord stops text lowercase
  /\ kept_stems is_word lower stemWord ∅ text lowercase
     = map (stem_of lower stemWord lowercase) (findall is_word text).
Proof.
  intros Hsub.
  assert (Heq : kept_stems is_word lower stemWord stops' text lowercase
                = filter (fun s => s ∉ stops')
                    (kept_stems is_word lower stemWord stops text lowercase)).
  { unfold kept_stems. rewrite list_filter_filter_l; [done|].
    intros s Hs Hin. apply Hs. by apply Hsub. }
  split; [done|]. split.
  - rewrite Heq. apply sublist_filter.
  - unfold kept_stems, stemWords, stem_inputs, stem_of.
    rewrite map_map.
    induction (findall is_word text) as [|w ws IH]; [done|].
    simpl. rewrite filter_cons_True by apply not_elem_of_empty. by rewrite IH.
Qed.
End StopwordLaws.

Section BatchLaws.
Variable is_word : char -> bool.
Variable lower : str -> str.
Variable stemWord : str -> str.
Variable stops : gset str.

Local Abbreviation batch_iterator := (batch_iterator is_word lower stemWord stops).
Local Abbreviation stemming := (stemming is_word lower stemWord stops).

(** X12: how many groups the generator yields and how many strings in all.
    For a positive batch size there are [ceil(len(ds) / batch_size)]
    groups, none for an empty dataset and a single one when the dataset
    fits in a batch, and the groups hold [len(ds)] strings together, the
    number the script announces as [length] to the trainer. *)
Theorem batch_iterator_count batch_size ds :
  (0 < batch_size)%nat ->
  length (batch_iterator batch_size ds) = ((length ds + batch_size - 1) / batch_size)%nat
  /\ sum_list_with length (batch_iterator batch_size ds) = length ds
  /\ (ds = [] -> batch_iterator batch_size ds = [])
  /\ (ds <> [] -> (length ds <= batch_size)%nat ->
      batch_iterator batch_size ds = [map (fun text => stemming text true) ds]).
Proof.
  intros Hn. unfold batch_iterator.
  assert (Hlen : length (dataset_iter batch_size ds)
                 = ((length ds + batch_size - 1) / batch_size)%nat).
  { unfold dataset_iter. by rewrite length_map, length_seq. }
  split; [by rewrite length_map|]. split; [|split].
  - rewrite <- (dataset_iter_concat batch_size ds Hn) at 2.
    generalize (dataset_iter batch_size ds). intros l.
    induction l as [|g l IH]; [done|].
    simpl. rewrite length_app, length_map. by rewrite IH.
  - intros ->. unfold dataset_iter. simpl.
    rewrite Nat.div_small by lia. done.
  - intros Hne Hfit.
    assert (Hm : ((length ds + batch_size - 1) / batch_size = 1)%nat).
    { assert (Hpos : (0 < length ds)%nat) by (destruct ds; [done|simpl; lia]).
      pose proof (div_up_lt batch_size (length ds) 0 Hn) as H0.
      pose proof (div_up_lt batch_size (length ds) 1 Hn) as H1.
      generalize dependent ((length ds + batch_size - 1) / batch_size)%nat.
      intros m _ H0 H1. lia. }
    unfold dataset_iter. rewrite Hm. simpl.
    rewrite drop_0. rewrite take_ge by lia. done.
Qed.
End BatchLaws.

(** ** Concrete runs of the further properties *)

Lemma findall_splits_at_nonword_witness :
  findall is_word_ascii (str_of "ab cd" ++ 44 :: str_of "ef x")
  = findall is_word_ascii (str_of "ab cd") ++ findall is_word_ascii (str_of "ef x").
Proof. apply (findall_splits_at_nonword is_word_ascii). reflexivity. Defined.

Lemma findall_ignores_nonword_chars_witness :
  findall is_word_ascii (str_of "Running, dogs!")
  = findall is_word_ascii (str_of "Running  dogs?").
Proof.
  apply (findall_ignores_nonword_chars is_word_ascii). compute_done.
Defined.

Lemma findall_join_round_trip_witness :
  findall is_word_ascii
    (join [SPACE] (findall is_word_ascii (str_of "Hello, wide-world: a b!")))
  = findall is_word_ascii (str_of "Hello, wide-world: a b!").
Proof. apply (findall_join_round_trip is_word_ascii). reflexivity. Defined.

Lemma lowercase_flag_irrelevant_witness :
  sample_normalize (str_of "dogs agreed, running") true
  = sample_normalize (str_of "dogs agreed, running") false.
Proof.
  apply (lowercase_flag_irrelevant is_word_ascii lower_ascii sample_stem stops_sample).
  compute_done.
Defined.

Lemma stemming_splits_at_nonword_witness :
  sample_normalize (str_of "The dogs" ++ 44 :: str_of "agreed") true
  = sample_normalize (str_of "The dogs") true ++ [SPACE]
    ++ sample_normalize (str_of "agreed") true.
Proof.
  destruct (stemming_splits_at_nonword is_word_ascii lower_ascii sample_stem stops_sample
              (str_of "The dogs") 44 (str_of "agreed") true) as (_ & H2 & _).
  - reflexivity.
  - apply H2; compute_done.
Defined.

Lemma output_determines_stems_witness :
  sample_kept (str_of "dogs, running") true = sample_kept (str_of "The Dogs running!") true.
Proof.
  apply (output_determines_stems is_word_ascii lower_ascii sample_stem stops_sample);
    compute_done.
Defined.

Lemma output_empty_iff_all_stopwords_witness :
  sample_normalize (str_of "The and, of; owns") true = [].
Proof.
  apply (output_empty_iff_all_stopwords is_word_ascii lower_ascii sample_stem stops_sample).
  - compute_done.
  - apply Forall_forall. compute_done.
Defined.

Lemma more_stopwords_remove_more_witness :
  kept_stems is_word_ascii lower_ascii sample_stem (stops_sample ∪ {[ str_of "dog" ]})
    (str_of "The dogs agreed") true
  `sublist_of` sample_kept (str_of "The dogs agreed") true.
Proof.
  apply (more_stopwords_remove_more is_word_ascii lower_ascii sample_stem
           stops_sample (stops_sample ∪ {[ str_of "dog" ]})).
  apply union_subseteq_l.
Defined.

Lemma batch_iterator_count_witness :
  length (batch_iterator is_word_ascii lower_ascii sample_stem stops_sample 2
            (map str_of ["Running dogs"; "The dog owns"; "agreed"])) = 2%nat.
Proof.
  destruct (batch_iterator_count is_word_ascii lower_ascii sample_stem stops_sample 2
              (map str_of ["Running dogs"; "The dog owns"; "agreed"])) as (H1 & _);
    [lia|].
  rewrite H1. reflexivity.
Defined.
